(** * elist: an error-message stack (package [elist], file elist.go)

    A shallow embedding of the Go package and the properties of its
    constructors ([New], [Newf], [Push], [Pushf]) and of its rendering
    method ([Elist.Error]).

    The Go code allocates nodes with [new(Elist)], fills their fields by
    assignment and links an existing stack by pointer, not by copy.  The
    embedding keeps that: nodes live in a heap, a [*Elist] is a nil-able
    address, and every function of the package is a computation in a small
    state-and-failure monad over the heap. *)

From Stdlib Require Import ZArith Ascii.
From stdpp Require Import base option list strings pretty.

(** ** Strings of the Go source *)

(** The two characters that the source writes with an escape. *)
Definition LF : string := String "010"%char EmptyString.
Definition DQUOTE : string := String "034"%char EmptyString.

Module elist.

(** ** Data *)

(** An address of the heap of [Elist] nodes; a [*Elist] is [None] for the nil
    pointer and [Some l] for the address [l]. *)
Abbreviation loc := nat (only parsing).
Abbreviation ptr := (option nat) (only parsing).

(** A value of a type other than [*Elist] that implements the standard
    [error] interface.  [Push] stores the value itself in a node, never its
    text, and [Elist.Error] hands it to [fmt] with the verb [%v] at each
    rendering.  The record names the value.  What its methods do is given in
    the section on foreign code below, where [fmt] and the state of the
    foreign code are modelled.  The functions of this module read the value
    as inert: it has no [Format] method, and its [Error] method returns the
    text [foreign_Error] at every call and does nothing else, which is then
    also the text that [%v] prints. *)
Record foreign := Foreign { foreign_Error : string }.

(** The dynamic content of the field [value interface{}], by the case of the
    type switch of [Elist.Error] that it selects.  The last case stands for a
    value of any other type and keeps the text that [%v] prints for it.
    The package stores an error in the field at one place only, the [!ok]
    branch of [Push], where the error is not a [*Elist]. *)
Inductive iface :=
| INil
| IString (x : string)
| IError (x : foreign)
| IOther (x : string).

(** [type Elist struct { next *Elist; value interface{} }] *)
Record Elist := mkElist { next : ptr; value : iface }.

(** A value of the interface type [error]: the nil interface, a [*Elist]
    (whose pointer may itself be nil: an interface that holds a nil [*Elist]
    is not the nil interface), or a value of another type. *)
Inductive error :=
| ENil
| EElist (p : ptr)
| EForeign (f : foreign).

Abbreviation heap := (list Elist) (only parsing).

(** ** The monad of the package's functions *)

(** A computation reads and extends the heap and returns a result, or has no
    result ([None]): a nil pointer was dereferenced, an address is not
    allocated, or the walk of [Elist.Error] did not reach a nil [next] within
    the number of nodes of the heap. *)
Definition M (A : Type) : Type := heap → option (A * heap).

Definition ret {A} (a : A) : M A := λ h, Some (a, h).
Definition bind {A B} (m : M A) (k : A → M B) : M B :=
  λ h, match m h with
       | Some (a, h') => k a h'
       | None => None
       end.
Definition panic {A} : M A := λ _, None.

Declare Scope go_scope.
Delimit Scope go_scope with go.
Notation "x <- m ;; k" := (bind m (λ x, k))
  (at level 100, m at next level, right associativity) : go_scope.
Notation "m ;;; k" := (bind m (λ _, k))
  (at level 100, right associativity) : go_scope.
Local Open Scope go_scope.

(** [new(Elist)]: a fresh node with both fields zero, at the next address.
    The result is never the nil pointer. *)
Definition new_Elist : M ptr :=
  λ h, Some (Some (length h), h ++ [mkElist None INil]).

(** [*q]: reading a node through a pointer. *)
Definition load (q : ptr) : M Elist :=
  λ h, match q with
       | None => None
       | Some l => match h !! l with
                   | Some nd => Some (nd, h)
                   | None => None
                   end
       end.

(** [p.value = v] and [p.next = q]. *)
Definition set_value (p : ptr) (v : iface) : M unit :=
  nd <- load p ;;
  λ h, match p with
       | None => None
       | Some l => Some (tt, <[l := mkElist (next nd) v]> h)
       end.
Definition set_next (p : ptr) (q : ptr) : M unit :=
  nd <- load p ;;
  λ h, match p with
       | None => None
       | Some l => Some (tt, <[l := mkElist q (value nd)]> h)
       end.

(** ** [Elist.Error] *)

(** The body of the type switch: the text [msg] for a payload, with an
    adopted error read as inert ([switch_msg_in] runs the foreign code). *)
Definition switch_msg (v : iface) : string :=
  match v with
  | IString x => ": " +:+ DQUOTE +:+ x +:+ DQUOTE
  | IError x => ": " +:+ DQUOTE +:+ foreign_Error x +:+ DQUOTE
  | INil => ": [error == nil]"
  | IOther x => ": [Unrecognized error] " +:+ DQUOTE +:+ x +:+ DQUOTE
  end.

(** [fmt.Sprintf("Error %d%s.\n", n, msg)].  The counter [n] is a Go [int];
    it counts the nodes of one stack, which are distinct allocations, so it
    stays far below the range of [int] and is kept as an integer. *)
Definition Error_line (n : Z) (msg : string) : string :=
  "Error " +:+ pretty n +:+ msg +:+ "." +:+ LF.

(** The loop [for q := p; q != nil; q = q.next { ... }], with the state of
    its variables [q], [n] and [str] at the loop head.  [fuel] bounds the
    number of nodes visited. *)
Fixpoint Error_loop (fuel : nat) (q : ptr) (n : Z) (str : string) : M string :=
  match q with
  | None => ret str
  | Some _ =>
      match fuel with
      | O => panic
      | S fuel' =>
          nd <- load q ;;
          let msg := switch_msg (value nd) in
          Error_loop fuel' (next nd) (n + 1)%Z (str +:+ Error_line n msg)
      end
  end.

(** [func (p *Elist) Error() string] *)
Definition Error (p : ptr) : M string :=
  match p with
  | None => ret ""
  | Some _ => λ h, Error_loop (length h) p 1%Z "" h
  end.

(** ** Constructors *)

(** [func New(s string) error] *)
Definition New (s : string) : M error :=
  p <- new_Elist ;;
  match p with
  | None => ret ENil
  | Some _ =>
      set_value p (IString s) ;;;
      ret (EElist p)
  end.

(** [func Push(e error, s string) error].  The three cases of [e] are the
    test [e == nil] and the two outcomes of the type assertion of [e] to
    [*Elist], which succeeds for every [*Elist], the nil one too; in the
    last case a second node is allocated and takes [e] as its payload.  The
    assignment [p.next = q] is common to the last two cases. *)
Definition Push (e : error) (s : string) : M error :=
  p <- new_Elist ;;
  match p with
  | None => ret ENil
  | Some _ =>
      set_value p (IString s) ;;;
      match e with
      | ENil => ret (EElist p)
      | EElist q =>
          set_next p q ;;;
          ret (EElist p)
      | EForeign f =>
          q <- new_Elist ;;
          set_value q (IError f) ;;;
          set_next p q ;;;
          ret (EElist p)
      end
  end.

(** The formatter [fmt.Sprintf], which the package takes from its
    environment: any function from a format and its operands to a string. *)
Class Formatter (any : Type) := Sprintf : string → list any → string.

Section Formatted.
Context {any : Type} `{!Formatter any}.

(** [func Newf(format string, args ...interface{}) error] *)
Definition Newf (format : string) (args : list any) : M error :=
  New (Sprintf format args).

(** [func Pushf(e error, format string, args ...interface{}) error] *)
Definition Pushf (e : error) (format : string) (args : list any) : M error :=
  Push e (Sprintf format args).

End Formatted.

(** A call of the method [Error] on a value of the interface type [error]. *)
Definition error_Error (e : error) : M string :=
  match e with
  | ENil => panic
  | EElist p => Error p
  | EForeign f => ret (foreign_Error f)
  end.

End elist.

Import elist.
Local Open Scope go_scope.

(** ** Stacks in the heap *)

(** [is_chain h p cs]: following [next] from [p] in the heap [h] reaches the
    nil pointer, and [cs] lists the nodes on the way, head first, each with
    its address and its payload. *)
Inductive is_chain (h : heap) : ptr → list (loc * iface) → Prop :=
| is_chain_nil : is_chain h None []
| is_chain_cons l nd cs :
    h !! l = Some nd →
    is_chain h (next nd) cs →
    is_chain h (Some l) ((l, value nd) :: cs).

(** The lines that the loop of [Elist.Error] appends for a list of payloads
    when its counter starts at [n], and their concatenation. *)
Fixpoint trace_lines (n : Z) (vs : list iface) : list string :=
  match vs with
  | [] => []
  | v :: vs' => Error_line n (switch_msg v) :: trace_lines (n + 1)%Z vs'
  end.

Definition render (n : Z) (vs : list iface) : string :=
  foldr String.append "" (trace_lines n vs).

(** The loop with its counter as the machine integer that a Go [int] of [w]
    bits is: [n += 1] wraps around in two's complement. *)
Definition int_wrap (w : Z) (z : Z) : Z :=
  ((z + 2 ^ (w - 1)) mod 2 ^ w - 2 ^ (w - 1))%Z.

Fixpoint Error_loop_int (w : Z) (fuel : nat) (q : ptr) (n : Z) (str : string)
    : M string :=
  match q with
  | None => ret str
  | Some _ =>
      match fuel with
      | O => panic
      | S fuel' =>
          nd <- load q ;;
          let msg := switch_msg (value nd) in
          Error_loop_int w fuel' (next nd) (int_wrap w (n + 1))
            (str +:+ Error_line n msg)
      end
  end.

(** [Elist.Error] with that counter. *)
Definition Error_int (w : Z) (p : ptr) : M string :=
  match p with
  | None => ret ""
  | Some _ => λ h, Error_loop_int w (length h) p 1%Z "" h
  end.

(** The payload of a node that holds a message or an adopted error: the
    payloads for which the type switch takes its first or its second case. *)
Definition message_or_adopted (v : iface) : Prop :=
  match v with
  | IString _ | IError _ => True
  | INil | IOther _ => False
  end.

(** ** Clients of the package *)

(** [Push] called once for each message of [ms] in turn, each call on the
    result of the one before, the first on [e]. *)
Fixpoint push_all (e : error) (ms : list string) : M error :=
  match ms with
  | [] => ret e
  | m :: ms' => e' <- Push e m ;; push_all e' ms'
  end.

(** A call of one of the four public functions. *)
Inductive call (any : Type) :=
| CallNew (s : string)
| CallNewf (format : string) (args : list any)
| CallPush (e : error) (s : string)
| CallPushf (e : error) (format : string) (args : list any).
Arguments CallNew {any}.
Arguments CallNewf {any}.
Arguments CallPush {any}.
Arguments CallPushf {any}.

Definition run_call {any} `{!Formatter any} (c : call any) : M error :=
  match c with
  | CallNew s => New s
  | CallNewf format args => Newf format args
  | CallPush e s => Push e s
  | CallPushf e format args => Pushf e format args
  end.

(** The errors that a client can pass which has no other source of [Elist]
    nodes than the package: the nil interface, a nil [*Elist], any value of
    another type, and the stacks the package returned to it. *)
Definition client_error (known : list error) (e : error) : Prop :=
  match e with
  | ENil | EForeign _ | EElist None => True
  | EElist (Some _) => e ∈ known
  end.

Definition client_call {any} (known : list error) (c : call any) : Prop :=
  match c with
  | CallNew _ | CallNewf _ _ => True
  | CallPush e _ | CallPushf e _ _ => client_error known e
  end.

(** The heaps that calls of the public functions build from the empty heap,
    with the errors returned so far. *)
Inductive built {any} `{!Formatter any} : heap → list error → Prop :=
| built_start : built [] []
| built_call h known c e h' :
    built h known →
    client_call known c →
    run_call c h = Some (e, h') →
    built h' (e :: known).

(** Every stack among [known] is a stack of the heap whose nodes all hold a
    message or an adopted error. *)
Definition chains_ok (h : heap) (known : list error) : Prop :=
  ∀ p, EElist p ∈ known →
    ∃ cs, is_chain h p cs ∧ Forall message_or_adopted cs.*2.

(** The payloads of a stack, head first, that are one message or more and
    below them nothing or a single adopted error. *)
Definition messages_then_root (vs : list iface) : Prop :=
  ∃ m ms tail, vs = (IString <$> m :: ms) ++ tail ∧
               (tail = [] ∨ ∃ f, tail = [IError f]).

(** A formatter for examples: it appends the operands to the format. *)
Definition append_operands : Formatter string :=
  λ format args, foldr String.append "" (format :: args).

(** Two heaps for examples: a stack as [Push] builds it on a foreign error
    that was adopted before, and a stack with a node that has no payload and
    one with a payload of another type, as only code outside the public
    functions can make them. *)
Definition sample_heap : heap :=
  [mkElist None (IError (Foreign "EOF"));
   mkElist (Some 0) (IString "read failed")].
Definition sample_cs : list (loc * iface) :=
  [(1, IString "read failed"); (0, IError (Foreign "EOF"))].

Definition odd_heap : heap :=
  [mkElist None INil;
   mkElist (Some 0) (IOther "42");
   mkElist (Some 1) (IString "outer")].
Definition odd_cs : list (loc * iface) :=
  [(2, IString "outer"); (1, IOther "42"); (0, INil)].

(** ** Foreign code *)

(** What a call of a method of a foreign value does, for a method that comes
    to an end: it returns a string, or it panics.  [fmt] recovers a panic of
    a method it calls and writes a text in place of the operand; [recovered]
    is that text for a receiver that is not a nil pointer (a marker with the
    verb and the panic value). *)
Inductive outcome :=
| Returns (s : string)
| Panics (recovered : string).

(** The code behind a foreign value, over the state [W] of the foreign
    program: whether the value is a nil pointer of its type, its [Format]
    method for the verb [%v] if its type implements [fmt.Formatter], and its
    own [Error] method.  A method reads and changes the foreign state.  It
    cannot write a field of an [Elist] node, the fields are not exported;
    nodes that foreign code allocates through the package are part of its
    own state. *)
Record methods (W : Type) := mkMethods {
  nil_pointer : bool;
  Format_method : option (W → outcome * W);
  Error_method : W → outcome * W
}.
Arguments mkMethods {W}.
Arguments nil_pointer {W}.
Arguments Format_method {W}.
Arguments Error_method {W}.

(** [fmt] after a method it called: the string returned, or for a panic the
    text [<nil>] when the receiver is a nil pointer and the marker
    otherwise. *)
Definition fmt_recover (nil : bool) (o : outcome) : string :=
  match o with
  | Returns s => s
  | Panics recovered => if nil then "<nil>" else recovered
  end.

(** The text that [fmt] prints under [%v] for an operand that implements
    [error]: a [Format] method takes precedence, otherwise the [Error]
    method is called. *)
Definition fmt_v {W : Type} (m : methods W) (w : W) : string * W :=
  let call := match Format_method m with
              | Some format => format
              | None => Error_method m
              end in
  (fmt_recover (nil_pointer m) (call w).1, (call w).2).

Section ForeignCode.
Context {W : Type} (code : foreign → methods W).

(** The type switch of [Elist.Error] with the foreign code run: the case
    [error] prints the stored value [x] itself with [%v]. *)
Definition switch_msg_in (v : iface) (w : W) : string * W :=
  match v with
  | IString x => (": " +:+ DQUOTE +:+ x +:+ DQUOTE, w)
  | IError x =>
      (": " +:+ DQUOTE +:+ (fmt_v (code x) w).1 +:+ DQUOTE,
       (fmt_v (code x) w).2)
  | INil => (": [error == nil]", w)
  | IOther x => (": [Unrecognized error] " +:+ DQUOTE +:+ x +:+ DQUOTE, w)
  end.

(** The loop of [Elist.Error], as [Error_loop], with the foreign state. *)
Fixpoint Error_loop_in (fuel : nat) (q : ptr) (n : Z) (str : string) (w : W)
    : M (string * W) :=
  match q with
  | None => ret (str, w)
  | Some _ =>
      match fuel with
      | O => panic
      | S fuel' =>
          nd <- load q ;;
          let msg := switch_msg_in (value nd) w in
          Error_loop_in fuel' (next nd) (n + 1)%Z
            (str +:+ Error_line n msg.1) msg.2
      end
  end.

(** [func (p *Elist) Error() string] with the foreign code it runs. *)
Definition Error_in (p : ptr) (w : W) : M (string * W) :=
  match p with
  | None => ret ("", w)
  | Some _ => λ h, Error_loop_in (length h) p 1%Z "" w h
  end.

(** The text and the foreign state that the loop leaves for a list of
    payloads. *)
Fixpoint render_in (n : Z) (vs : list iface) (w : W) : string * W :=
  match vs with
  | [] => ("", w)
  | v :: vs' =>
      let msg := switch_msg_in v w in
      let rest := render_in (n + 1)%Z vs' msg.2 in
      (Error_line n msg.1 +:+ rest.1, rest.2)
  end.

(** Printing the adopted errors among the payloads [vs] leaves the foreign
    state [w] as it is. *)
Definition quiet (vs : list iface) (w : W) : Prop :=
  ∀ x, IError x ∈ vs → (fmt_v (code x) w).2 = w.

(** Two calls of [Elist.Error] in a row on the same pointer. *)
Definition Error_twice (p : ptr) (w : W) : M (string * string) :=
  r1 <- Error_in p w ;;
  r2 <- Error_in p r1.2 ;;
  ret (r1.1, r2.1).

End ForeignCode.

(** Foreign code that is inert: no [Format] method, and an [Error] method
    that returns the text of the value and leaves the state. *)
Definition inert_code {W : Type} (x : foreign) : methods W :=
  mkMethods false None (λ w, (Returns (foreign_Error x), w)).

(** Foreign code of a type that implements [fmt.Formatter]: [Format] writes
    a text of its own, [Error] returns the text of the value. *)
Definition formatter_code (x : foreign) : methods unit :=
  mkMethods false (Some (λ w, (Returns "status 7", w)))
            (λ w, (Returns (foreign_Error x), w)).

(** Foreign code of a nil pointer whose [Error] method panics. *)
Definition nil_code (x : foreign) : methods unit :=
  mkMethods true None (λ w, (Panics "", w)).

(** Foreign code with a state, the number of calls so far: [Error] returns
    the text of the value followed by that number, and counts the call. *)
Definition counting_code (x : foreign) : methods nat :=
  mkMethods false None
            (λ w, (Returns (foreign_Error x +:+ " #" +:+ pretty w), S w)).

(** * Properties *)

(** ** Strings *)

Lemma append_cons (c : ascii) (s1 s2 : string) :
  String c s1 +:+ s2 = String c (s1 +:+ s2).
Proof. reflexivity. Qed.

Lemma append_nil_l (s : string) : "" +:+ s = s.
Proof. reflexivity. Qed.

Lemma append_assoc (s1 s2 s3 : string) :
  (s1 +:+ s2) +:+ s3 = s1 +:+ (s2 +:+ s3).
Proof.
  induction s1 as [|c s1 IH]; [done |].
  by rewrite !append_cons, IH.
Qed.

Lemma append_nil_r (s : string) : s +:+ "" = s.
Proof.
  induction s as [|c s IH]; [done |].
  by rewrite append_cons, IH.
Qed.

Lemma render_cons n v vs :
  render n (v :: vs) = Error_line n (switch_msg v) +:+ render (n + 1)%Z vs.
Proof. reflexivity. Qed.

Lemma trace_lines_length n vs : length (trace_lines n vs) = length vs.
Proof. revert n; induction vs as [|v vs IH]; intros n; simpl; [done | by rewrite IH]. Qed.

Lemma trace_lines_lookup n vs (k : nat) :
  trace_lines n vs !! k
  = (λ v, Error_line (n + Z.of_nat k)%Z (switch_msg v)) <$> vs !! k.
Proof.
  revert n k; induction vs as [|v vs IH]; intros n k; [done |].
  destruct k as [|k]; simpl.
  - by rewrite Z.add_0_r.
  - rewrite IH. destruct (vs !! k); simpl; [| done].
    do 2 f_equal. lia.
Qed.

(** ** The heap operations *)

Lemma insert_last (h : heap) (nd nd' : Elist) :
  <[length h := nd']> (h ++ [nd]) = h ++ [nd'].
Proof.
  rewrite insert_app_r_alt by lia. by rewrite Nat.sub_diag.
Qed.

Lemma lookup_last (h : heap) (nd : Elist) : (h ++ [nd]) !! length h = Some nd.
Proof. by rewrite lookup_app_r, Nat.sub_diag by lia. Qed.

Lemma bind_Some {A B} (m : M A) (k : A → M B) h a h' :
  m h = Some (a, h') → bind m k h = k a h'.
Proof. unfold bind. by intros ->. Qed.

Lemma bind_inv {A B} (m : M A) (k : A → M B) h b h2 :
  bind m k h = Some (b, h2) →
  ∃ a h1, m h = Some (a, h1) ∧ k a h1 = Some (b, h2).
Proof.
  unfold bind. destruct (m h) as [[a h1]|]; [eauto | done].
Qed.

Lemma new_Elist_eq h :
  new_Elist h = Some (Some (length h), h ++ [mkElist None INil]).
Proof. reflexivity. Qed.

Lemma load_Some l h nd : h !! l = Some nd → load (Some l) h = Some (nd, h).
Proof. unfold load. by intros ->. Qed.

Lemma set_value_last v h nd :
  set_value (Some (length h)) v (h ++ [nd])
  = Some (tt, h ++ [mkElist (next nd) v]).
Proof.
  unfold set_value.
  rewrite (bind_Some _ _ _ nd (h ++ [nd])) by apply load_Some, lookup_last.
  by rewrite insert_last.
Qed.

Lemma set_next_last q h nd :
  set_next (Some (length h)) q (h ++ [nd])
  = Some (tt, h ++ [mkElist q (value nd)]).
Proof.
  unfold set_next.
  rewrite (bind_Some _ _ _ nd (h ++ [nd])) by apply load_Some, lookup_last.
  by rewrite insert_last.
Qed.

Lemma set_next_before_last q h nd nd' :
  set_next (Some (length h)) q (h ++ [nd; nd'])
  = Some (tt, h ++ [mkElist q (value nd); nd']).
Proof.
  unfold set_next.
  rewrite (bind_Some _ _ _ nd (h ++ [nd; nd'])).
  - cbv beta. rewrite insert_app_r_alt by lia. by rewrite Nat.sub_diag.
  - apply load_Some. by rewrite lookup_app_r, Nat.sub_diag by lia.
Qed.

(** The steps of a computation whose results are known. *)
Ltac go_step lem := erewrite bind_Some by apply lem; cbv beta.

Lemma New_eq s h :
  New s h = Some (EElist (Some (length h)), h ++ [mkElist None (IString s)]).
Proof.
  unfold New. go_step new_Elist_eq; simpl.
  by go_step set_value_last.
Qed.

Lemma Push_nil_eq s h :
  Push ENil s h
  = Some (EElist (Some (length h)), h ++ [mkElist None (IString s)]).
Proof.
  unfold Push. go_step new_Elist_eq; simpl.
  by go_step set_value_last.
Qed.

Lemma Push_Elist_eq q s h :
  Push (EElist q) s h
  = Some (EElist (Some (length h)), h ++ [mkElist q (IString s)]).
Proof.
  unfold Push. go_step new_Elist_eq; simpl.
  go_step set_value_last; simpl.
  by go_step set_next_last.
Qed.

Lemma Push_foreign_eq f s h :
  Push (EForeign f) s h
  = Some (EElist (Some (length h)),
          h ++ [mkElist (Some (S (length h))) (IString s);
                mkElist None (IError f)]).
Proof.
  unfold Push. go_step new_Elist_eq; simpl.
  go_step set_value_last; simpl.
  set (h1 := h ++ [mkElist None (IString s)]).
  assert (length h1 = S (length h)) as Hlen
    by (unfold h1; rewrite length_app; simpl; lia).
  go_step new_Elist_eq; simpl.
  go_step set_value_last; simpl.
  unfold h1. rewrite <- app_assoc; simpl.
  go_step set_next_before_last; simpl.
  fold h1. by rewrite Hlen.
Qed.

(** ** Stacks *)

Lemma is_chain_app h ext p cs : is_chain h p cs → is_chain (h ++ ext) p cs.
Proof.
  induction 1 as [|l nd cs Hl _ IH]; [constructor |].
  constructor; [| done]. by apply lookup_app_l_Some.
Qed.

(** A pointer heads at most one stack. *)
Lemma is_chain_det h p cs1 cs2 :
  is_chain h p cs1 → is_chain h p cs2 → cs1 = cs2.
Proof.
  intros H1; revert cs2.
  induction H1 as [|l nd cs Hl _ IH]; intros cs2 H2.
  - by inversion H2.
  - inversion H2 as [|l' nd' cs' Hl' Hc']; subst.
    rewrite Hl in Hl'. injection Hl' as <-. f_equal. by apply IH.
Qed.

Lemma is_chain_allocated h p cs l :
  is_chain h p cs → l ∈ cs.*1 → l < length h.
Proof.
  induction 1 as [|l' nd cs Hl _ IH]; simpl.
  - by intros ?%elem_of_nil.
  - intros [->|?]%elem_of_cons; [by eapply lookup_lt_Some | auto].
Qed.

(** Every node of a stack heads the rest of the stack from it. *)
Lemma is_chain_from h p cs l :
  is_chain h p cs → l ∈ cs.*1 →
  ∃ cs', is_chain h (Some l) cs' ∧ length cs' ≤ length cs.
Proof.
  induction 1 as [|l' nd cs Hl Hc IH]; simpl.
  - by intros ?%elem_of_nil.
  - intros [->|Hin]%elem_of_cons.
    + exists ((l', value nd) :: cs). split; [by constructor | done].
    + destruct (IH Hin) as (cs' & ? & ?). exists cs'. split; [done | lia].
Qed.

(** No node occurs twice in a stack: the walk along [next] has no cycle. *)
Lemma is_chain_NoDup h p cs : is_chain h p cs → NoDup cs.*1.
Proof.
  induction 1 as [|l nd cs Hl Hc IH]; simpl; constructor; [| done].
  intros Hin. destruct (is_chain_from _ _ _ _ Hc Hin) as (cs' & Hc' & Hlen).
  assert (cs' = (l, value nd) :: cs) as ->
    by (eapply is_chain_det; [done | by constructor]).
  simpl in Hlen. lia.
Qed.

Lemma is_chain_length h p cs : is_chain h p cs → length cs ≤ length h.
Proof.
  intros Hc.
  assert (cs.*1 ⊆+ seq 0 (length h)) as Hsub.
  { apply NoDup_submseteq; [by eapply is_chain_NoDup |].
    intros l Hl. apply elem_of_seq.
    pose proof (is_chain_allocated _ _ _ _ Hc Hl). lia. }
  apply submseteq_length in Hsub.
  by rewrite length_fmap, length_seq in Hsub.
Qed.

(** ** The loop of [Elist.Error] on a stack *)

Lemma Error_loop_chain h q cs fuel n str :
  is_chain h q cs → length cs ≤ fuel →
  Error_loop fuel q n str h = Some (str +:+ render n cs.*2, h).
Proof.
  intros Hc; revert fuel n str.
  induction Hc as [|l nd cs Hl _ IH]; intros fuel n str Hfuel.
  - destruct fuel; simpl; unfold ret; by rewrite append_nil_r.
  - destruct fuel as [|fuel]; simpl in Hfuel; [lia |].
    simpl. rewrite (bind_Some _ _ _ nd h) by (by apply load_Some). simpl.
    rewrite IH by lia.
    by rewrite render_cons, append_assoc.
Qed.

Lemma Error_chain h p cs :
  is_chain h p cs → Error p h = Some (render 1%Z cs.*2, h).
Proof.
  intros Hc. destruct p as [l|].
  - unfold Error. rewrite (Error_loop_chain h (Some l) cs); [done.. |].
    by eapply is_chain_length.
  - by inversion Hc.
Qed.

(** The counter does not wrap: on a stack of less than [2 ^ (w - 1) - 1]
    nodes the loop with a counter of [w] bits is the loop above.  A stack
    has no more nodes than the heap, and each node takes more than one byte
    of an address space of [2 ^ w] bytes. *)
Lemma int_wrap_small w z :
  (0 < w)%Z → (- 2 ^ (w - 1) ≤ z < 2 ^ (w - 1))%Z → int_wrap w z = z.
Proof.
  intros Hw Hz. unfold int_wrap.
  assert (2 ^ w = 2 * 2 ^ (w - 1))%Z as Hpow.
  { rewrite <- Z.pow_succ_r by lia. f_equal. lia. }
  rewrite Z.mod_small by lia. lia.
Qed.

Lemma Error_loop_int_chain w h q cs fuel n str :
  (0 < w)%Z →
  is_chain h q cs → length cs ≤ fuel →
  (- 2 ^ (w - 1) ≤ n)%Z → (n + Z.of_nat (length cs) < 2 ^ (w - 1))%Z →
  Error_loop_int w fuel q n str h = Error_loop fuel q n str h.
Proof.
  intros Hw Hc; revert fuel n str.
  induction Hc as [|l nd cs Hl _ IH]; intros fuel n str Hfuel Hlo Hhi.
  - by destruct fuel.
  - destruct fuel as [|fuel]; simpl in Hfuel; [lia |].
    simpl in *. rewrite !(bind_Some _ _ _ nd h) by (by apply load_Some).
    rewrite int_wrap_small by lia. apply IH; lia.
Qed.

(** The loop only reads the heap. *)
Lemma Error_loop_heap fuel q n str h s h' :
  Error_loop fuel q n str h = Some (s, h') → h' = h.
Proof.
  revert q n str; induction fuel as [|fuel IH]; intros q n str;
    destruct q as [l|]; simpl; unfold ret, panic; try congruence.
  intros (nd & h1 & Hload & Hrest)%bind_inv.
  unfold load in Hload. destruct (h !! l); [| done].
  injection Hload as <- <-. by eapply IH.
Qed.

(** The walk returns only on a stack: on a heap where [next] leads into a
    cycle or to an address that is not allocated it has no result. *)
Lemma Error_loop_Some_chain fuel q n str h s h' :
  Error_loop fuel q n str h = Some (s, h') → ∃ cs, is_chain h q cs.
Proof.
  revert q n str; induction fuel as [|fuel IH]; intros q n str;
    destruct q as [l|]; simpl; unfold panic; try congruence;
    try (intros _; exists []; constructor).
  intros (nd & h1 & Hload & Hrest)%bind_inv.
  unfold load in Hload. destruct (h !! l) as [nd'|] eqn:Hl; [| done].
  injection Hload as <- <-.
  destruct (IH _ _ _ Hrest) as [cs Hc].
  exists ((l, value nd') :: cs). by constructor.
Qed.

Lemma error_Error_Elist p : error_Error (EElist p) = Error p.
Proof. reflexivity. Qed.

Lemma Error_heap p h s h' : Error p h = Some (s, h') → h' = h.
Proof.
  destruct p as [l|]; simpl.
  - apply Error_loop_heap.
  - unfold ret. congruence.
Qed.

(** Normalises a concatenation of literals and variables. *)
Ltac str_norm :=
  unfold render; simpl; unfold Error_line, switch_msg;
  rewrite ?append_assoc, ?append_nil_r; reflexivity.

(** ** Rendering *)

(** C3: [Elist.Error] on the nil pointer returns the empty string; it does
    not fail and leaves the heap as it is. *)
Theorem Error_nil (h : heap) : Error None h = Some ("", h).
Proof. reflexivity. Qed.

(** C2: for every string [s], the stack that [New(s)] returns renders as the
    one line [Error 1: "s".] with its newline. *)
Theorem New_render (s : string) (h : heap) :
  ∃ h', (c <- New s ;; error_Error c) h
        = Some ("Error 1: " +:+ DQUOTE +:+ s +:+ DQUOTE +:+ "." +:+ LF, h').
Proof.
  eexists. go_step New_eq. rewrite error_Error_Elist.
  erewrite Error_chain; cycle 1.
  { econstructor; [apply lookup_last |]. constructor. }
  do 2 f_equal. str_norm.
Qed.

(** C1: for all strings [s1] and [s2], the stack [Push(New(s1), s2)] renders
    as two lines, the message pushed last on the first line. *)
Theorem Push_New_render (s1 s2 : string) (h : heap) :
  ∃ h', (c1 <- New s1 ;; c2 <- Push c1 s2 ;; error_Error c2) h
        = Some ("Error 1: " +:+ DQUOTE +:+ s2 +:+ DQUOTE +:+ "." +:+ LF +:+
                "Error 2: " +:+ DQUOTE +:+ s1 +:+ DQUOTE +:+ "." +:+ LF, h').
Proof.
  eexists. go_step New_eq. go_step Push_Elist_eq. rewrite error_Error_Elist.
  erewrite Error_chain; cycle 1.
  { econstructor; [apply lookup_last |]. simpl.
    apply is_chain_app.
    econstructor; [apply lookup_last |]. constructor. }
  do 2 f_equal. str_norm.
Qed.

(** ** Construction *)

(** C4: [Push] on the nil error does what [New] does: the same node is
    allocated, the two stacks render alike, and the stack is one node whose
    [next] is nil. *)
Theorem Push_nil_New (s : string) (h : heap) :
  Push ENil s h = New s h ∧
  (∃ out h', (c <- Push ENil s ;; error_Error c) h = Some (out, h') ∧
             (c <- New s ;; error_Error c) h = Some (out, h')) ∧
  ∃ l h', Push ENil s h = Some (EElist (Some l), h') ∧
          h' !! l = Some (mkElist None (IString s)) ∧
          is_chain h' (Some l) [(l, IString s)].
Proof.
  assert (is_chain (h ++ [mkElist None (IString s)]) (Some (length h))
            [(length h, IString s)]) as Hc.
  { apply (is_chain_cons _ _ (mkElist None (IString s)));
      [apply lookup_last | constructor]. }
  split; [by rewrite Push_nil_eq, New_eq |]. split.
  - do 2 eexists. go_step Push_nil_eq. go_step New_eq.
    rewrite error_Error_Elist. split; by apply Error_chain.
  - do 2 eexists. split; [apply Push_nil_eq |].
    split; [apply lookup_last | done].
Qed.

(** C10: [Push] on a non-nil error that holds a nil [*Elist] allocates the
    message node alone and gives it that nil pointer as [next]; the stack
    renders as the single line of the message. *)
Theorem Push_typed_nil (s : string) (h : heap) :
  ∃ l h', Push (EElist None) s h = Some (EElist (Some l), h') ∧
          length h' = S (length h) ∧
          h' !! l = Some (mkElist None (IString s)) ∧
          Error (Some l) h'
          = Some ("Error 1: " +:+ DQUOTE +:+ s +:+ DQUOTE +:+ "." +:+ LF, h').
Proof.
  exists (length h), (h ++ [mkElist None (IString s)]).
  split; [apply Push_Elist_eq |].
  split; [rewrite length_app; simpl; lia |].
  split; [apply lookup_last |].
  erewrite Error_chain; cycle 1.
  { econstructor; [apply lookup_last |]. constructor. }
  do 2 f_equal. str_norm.
Qed.

(** C8: the formatted constructors are the plain ones on the formatted
    string, for every formatter, format, operands and error. *)
Theorem Newf_Pushf_plain {any : Type} `{!Formatter any}
    (e : error) (format : string) (args : list any) :
  Newf format args = New (Sprintf format args) ∧
  Pushf e format args = Push e (Sprintf format args).
Proof. split; reflexivity. Qed.

(** ** Repeated [Push] *)

Lemma push_all_chain (ms : list string) (h : heap) (p : ptr)
    (cs : list (loc * iface)) :
  is_chain h p cs →
  ∃ p' h' cs',
    push_all (EElist p) ms h = Some (EElist p', h') ∧
    is_chain h' p' cs' ∧
    cs'.*2 = (IString <$> reverse ms) ++ cs.*2.
Proof.
  revert h p cs; induction ms as [|m ms IH]; intros h p cs Hc.
  - by exists p, h, cs.
  - simpl. go_step Push_Elist_eq.
    set (h1 := h ++ [mkElist p (IString m)]).
    assert (is_chain h1 (Some (length h)) ((length h, IString m) :: cs)) as Hc1.
    { apply (is_chain_cons _ _ (mkElist p (IString m)));
        [apply lookup_last | by apply is_chain_app]. }
    destruct (IH _ _ _ Hc1) as (p' & h' & cs' & Hrun & Hc' & Hvs).
    exists p', h', cs'. split; [done |]. split; [done |].
    rewrite Hvs, reverse_cons, fmap_app, <- app_assoc. done.
Qed.

(** C6: [n >= 1] calls of [Push], the first on the nil error and each next
    one on the result of the one before, return a stack of exactly [n]
    nodes; it renders as [n] lines, and line [k + 1] carries the number
    [k + 1] and the message pushed [k] calls before the last. *)
Theorem push_all_render (n : nat) (ms : list string) (h : heap) :
  1 ≤ n → length ms = n →
  ∃ l h' cs lines,
    push_all ENil ms h = Some (EElist (Some l), h') ∧
    is_chain h' (Some l) cs ∧ length cs = n ∧
    Error (Some l) h' = Some (foldr String.append "" lines, h') ∧
    length lines = n ∧
    ∀ (k : nat) (m : string), reverse ms !! k = Some m →
      cs.*2 !! k = Some (IString m) ∧
      lines !! k = Some ("Error " +:+ pretty (Z.of_nat (k + 1)) +:+ ": " +:+
                         DQUOTE +:+ m +:+ DQUOTE +:+ "." +:+ LF).
Proof.
  intros Hn Hlen. destruct ms as [|m ms]; [simpl in Hlen; lia |].
  set (h1 := h ++ [mkElist None (IString m)]).
  assert (is_chain h1 (Some (length h)) [(length h, IString m)]) as Hc1.
  { apply (is_chain_cons _ _ (mkElist None (IString m)));
      [apply lookup_last | constructor]. }
  destruct (push_all_chain ms _ _ _ Hc1) as (p' & h' & cs' & Hrun & Hc' & Hvs).
  simpl in Hvs.
  assert (length cs' = n) as Hcs.
  { rewrite <- (length_fmap snd cs'), Hvs.
    rewrite length_app, length_fmap, length_reverse; simpl in *; lia. }
  destruct p' as [l|]; [| inversion Hc'; subst; simpl in *; lia].
  exists l, h', cs', (trace_lines 1 cs'.*2).
  split. { simpl. by go_step Push_nil_eq. }
  split; [done |]. split; [done |].
  split; [by apply Error_chain |].
  split; [by rewrite trace_lines_length, length_fmap |].
  intros k m' Hk.
  assert (cs'.*2 !! k = Some (IString m')) as Hpay.
  { rewrite Hvs. change ([IString m]) with (IString <$> [m]).
    rewrite <- fmap_app, <- reverse_cons, list_lookup_fmap, Hk. done. }
  split; [done |].
  rewrite trace_lines_lookup, Hpay; simpl.
  f_equal. unfold Error_line, switch_msg.
  replace (1 + Z.of_nat k)%Z with (Z.of_nat (k + 1)) by lia.
  by rewrite ?append_assoc.
Qed.

Lemma push_all_render_witness :
  (1 ≤ 3 ∧ length ["open"; "parse"; "load"] = 3) ∧
  ∃ l h' cs lines,
    push_all ENil ["open"; "parse"; "load"] [] = Some (EElist (Some l), h') ∧
    is_chain h' (Some l) cs ∧ length cs = 3 ∧
    Error (Some l) h' = Some (foldr String.append "" lines, h') ∧
    length lines = 3 ∧
    ∀ (k : nat) (m : string),
      reverse ["open"; "parse"; "load"] !! k = Some m →
      cs.*2 !! k = Some (IString m) ∧
      lines !! k = Some ("Error " +:+ pretty (Z.of_nat (k + 1)) +:+ ": " +:+
                         DQUOTE +:+ m +:+ DQUOTE +:+ "." +:+ LF).
Proof.
  split; [split; [lia | reflexivity] |].
  apply (push_all_render 3 ["open"; "parse"; "load"] []); [lia | reflexivity].
Defined.

(** ** Stacks built through the public functions *)

Lemma chains_ok_alloc h ext known p cs e :
  chains_ok h known →
  e = EElist p →
  is_chain (h ++ ext) p cs →
  Forall message_or_adopted cs.*2 →
  chains_ok (h ++ ext) (e :: known).
Proof.
  intros Hok -> Hc Hvs p' [Heq|Hin]%elem_of_cons.
  - injection Heq as ->. eauto.
  - destruct (Hok p' Hin) as (cs' & Hc' & Hvs').
    exists cs'. split; [by apply is_chain_app | done].
Qed.

Lemma New_ok h known s e h' :
  chains_ok h known → New s h = Some (e, h') → chains_ok h' (e :: known).
Proof.
  rewrite New_eq. intros Hok [= <- <-].
  eapply chains_ok_alloc; [done | done | |].
  - apply (is_chain_cons _ _ (mkElist None (IString s)));
      [apply lookup_last | constructor].
  - by repeat constructor.
Qed.

Lemma Push_ok h known e0 s e h' :
  chains_ok h known → client_error known e0 →
  Push e0 s h = Some (e, h') → chains_ok h' (e :: known).
Proof.
  intros Hok Hclient. destruct e0 as [|q|f].
  - rewrite Push_nil_eq. intros [= <- <-].
    eapply chains_ok_alloc; [done | done | |].
    + apply (is_chain_cons _ _ (mkElist None (IString s)));
        [apply lookup_last | constructor].
    + by repeat constructor.
  - rewrite Push_Elist_eq. intros [= <- <-].
    assert (∃ cs, is_chain h q cs ∧ Forall message_or_adopted cs.*2)
      as (cs & Hc & Hvs).
    { destruct q as [l|]; [by apply Hok |].
      exists []. split; constructor. }
    eapply chains_ok_alloc; [done | done | |].
    + apply (is_chain_cons _ _ (mkElist q (IString s)));
        [apply lookup_last | by apply is_chain_app].
    + simpl. by constructor.
  - rewrite Push_foreign_eq. intros [= <- <-].
    eapply chains_ok_alloc; [done | done | |].
    + apply (is_chain_cons _ _ (mkElist (Some (S (length h))) (IString s))).
      { by rewrite lookup_app_r, Nat.sub_diag by lia. }
      apply (is_chain_cons _ (S (length h)) (mkElist None (IError f)));
        [| constructor].
      rewrite lookup_app_r by lia.
      by replace (S (length h) - length h) with 1 by lia.
    + by repeat constructor.
Qed.

Lemma built_chains_ok {any : Type} `{!Formatter any} h known :
  built h known → chains_ok h known.
Proof.
  induction 1 as [|h known c e h' _ IH Hclient Hrun].
  - by intros p ?%elem_of_nil.
  - destruct c as [s|format args|e0 s|e0 format args]; simpl in *.
    + by eapply New_ok.
    + by eapply New_ok.
    + by eapply Push_ok.
    + by eapply Push_ok.
Qed.

(** C9: in a heap built by calls of [New], [Newf], [Push] and [Pushf] alone,
    every node of every returned stack holds a message or an adopted error;
    [Elist.Error] renders the stack from exactly these payloads, so its
    switch takes neither the nil case nor the default case. *)
Theorem built_payloads {any : Type} `{!Formatter any}
    (h : heap) (known : list error) (p : ptr) :
  built h known → EElist p ∈ known →
  ∃ cs, is_chain h p cs ∧
        Forall message_or_adopted cs.*2 ∧
        Error p h = Some (render 1 cs.*2, h).
Proof.
  intros Hb Hin.
  destruct (built_chains_ok h known Hb p Hin) as (cs & Hc & Hvs).
  exists cs. split; [done |]. split; [done |]. by apply Error_chain.
Qed.

Lemma built_payloads_witness :
  let h := [mkElist None (IString "disk full: 93");
            mkElist (Some 0) (IString "save failed")] in
  let known := [EElist (Some 1); EElist (Some 0)] in
  (built (Formatter0 := append_operands) h known ∧ EElist (Some 1) ∈ known) ∧
  ∃ cs, is_chain h (Some 1) cs ∧
        Forall message_or_adopted cs.*2 ∧
        Error (Some 1) h = Some (render 1 cs.*2, h).
Proof.
  intros h known.
  assert (built (Formatter0 := append_operands) h known) as Hb.
  { apply (built_call [mkElist None (IString "disk full: 93")]
             [EElist (Some 0)] (CallPush (EElist (Some 0)) "save failed"));
      [| simpl; apply list_elem_of_here | reflexivity].
    apply (built_call [] [] (CallNewf "disk full: " ["93"]));
      [apply built_start | exact I | reflexivity]. }
  assert (EElist (Some 1) ∈ known) as Hin by apply list_elem_of_here.
  split; [by split |].
  exact (built_payloads h known (Some 1) Hb Hin).
Defined.

(** ** The scenarios of the documentation *)

Example scenario_trace :
  (c <- New "db: connection refused" ;;
   c2 <- Push c "service: query failed" ;;
   c3 <- Push c2 "handler: request failed" ;;
   error_Error c3) []
  = Some ("Error 1: " +:+ DQUOTE +:+ "handler: request failed" +:+ DQUOTE
            +:+ "." +:+ LF +:+
          "Error 2: " +:+ DQUOTE +:+ "service: query failed" +:+ DQUOTE
            +:+ "." +:+ LF +:+
          "Error 3: " +:+ DQUOTE +:+ "db: connection refused" +:+ DQUOTE
            +:+ "." +:+ LF,
          [mkElist None (IString "db: connection refused");
           mkElist (Some 0) (IString "service: query failed");
           mkElist (Some 1) (IString "handler: request failed")]).
Proof. reflexivity. Qed.

Example scenario_top_level :
  (c <- Push ENil "top-level failure" ;; error_Error c) []
  = Some ("Error 1: " +:+ DQUOTE +:+ "top-level failure" +:+ DQUOTE +:+ "."
            +:+ LF,
          [mkElist None (IString "top-level failure")]).
Proof. reflexivity. Qed.

(** A node with no payload, which a client can make with [new(elist.Elist)]
    but which no public function makes, takes the nil case of the switch. *)
Example zero_node_trace :
  (c <- Push (EElist (Some 0)) "outer" ;; error_Error c) [mkElist None INil]
  = Some ("Error 1: " +:+ DQUOTE +:+ "outer" +:+ DQUOTE +:+ "." +:+ LF +:+
          "Error 2: [error == nil]." +:+ LF,
          [mkElist None INil; mkElist (Some 0) (IString "outer")]).
Proof. reflexivity. Qed.

(** * Further properties of the package *)

Lemma sample_chain : is_chain sample_heap (Some 1) sample_cs.
Proof.
  apply (is_chain_cons _ 1 (mkElist (Some 0) (IString "read failed")));
    [reflexivity |].
  apply (is_chain_cons _ 0 (mkElist None (IError (Foreign "EOF"))));
    [reflexivity |].
  constructor.
Qed.

Lemma odd_chain : is_chain odd_heap (Some 2) odd_cs.
Proof.
  apply (is_chain_cons _ 2 (mkElist (Some 1) (IString "outer")));
    [reflexivity |].
  apply (is_chain_cons _ 1 (mkElist (Some 0) (IOther "42"))); [reflexivity |].
  apply (is_chain_cons _ 0 (mkElist None INil)); [reflexivity |].
  constructor.
Qed.

(** ** What a call allocates *)

(** X1: [New] never returns nil and never fails: on every heap it returns a
    non-nil [*Elist] at a fresh address, allocates exactly one node, with
    the message and a nil [next], and leaves every older node as it was. *)
Theorem New_fresh_node (s : string) (h : heap) :
  ∃ h', New s h = Some (EElist (Some (length h)), h') ∧
        length h' = S (length h) ∧
        h' !! length h = Some (mkElist None (IString s)) ∧
        ∀ l nd, h !! l = Some nd → h' !! l = Some nd.
Proof.
  exists (h ++ [mkElist None (IString s)]).
  split; [apply New_eq |].
  split; [rewrite length_app; simpl; lia |].
  split; [apply lookup_last |].
  intros l nd Hl. by apply lookup_app_l_Some.
Qed.

(** X2: [Push] never returns nil and never fails, whatever error it is
    given: it returns a non-nil [*Elist] at a fresh address whose node holds
    the message; it allocates one node, or two when it adopts an error of
    another type; the [next] of the new node is nil for the nil error, the
    very pointer of a [*Elist] (no copy), and the adopting node otherwise,
    which is the second new node and holds the error itself with a nil
    [next]; every older node stays as it was, and the heap after the call is
    the heap before it with the new nodes at its end. *)
Theorem Push_fresh_node (e : error) (s : string) (h : heap) :
  ∃ h', Push e s h = Some (EElist (Some (length h)), h') ∧
        length h' = length h + match e with EForeign _ => 2 | _ => 1 end ∧
        h' !! length h
        = Some (mkElist match e with
                        | ENil => None
                        | EElist q => q
                        | EForeign _ => Some (S (length h))
                        end (IString s)) ∧
        (∀ l nd, h !! l = Some nd → h' !! l = Some nd) ∧
        match e with
        | EForeign f => h' !! S (length h) = Some (mkElist None (IError f))
        | _ => True
        end ∧
        h' = h ++ match e with
                  | ENil => [mkElist None (IString s)]
                  | EElist q => [mkElist q (IString s)]
                  | EForeign f => [mkElist (Some (S (length h))) (IString s);
                                   mkElist None (IError f)]
                  end.
Proof.
  destruct e as [|q|f].
  - exists (h ++ [mkElist None (IString s)]).
    split; [apply Push_nil_eq |].
    split; [rewrite length_app; simpl; lia |].
    split; [apply lookup_last |].
    split; [| done].
    intros l nd Hl. by apply lookup_app_l_Some.
  - exists (h ++ [mkElist q (IString s)]).
    split; [apply Push_Elist_eq |].
    split; [rewrite length_app; simpl; lia |].
    split; [apply lookup_last |].
    split; [| done].
    intros l nd Hl. by apply lookup_app_l_Some.
  - exists (h ++ [mkElist (Some (S (length h))) (IString s);
                  mkElist None (IError f)]).
    split; [apply Push_foreign_eq |].
    split; [rewrite length_app; simpl; lia |].
    split; [by rewrite lookup_app_r, Nat.sub_diag by lia |].
    split; [intros l nd Hl; by apply lookup_app_l_Some |].
    split; [| done].
    rewrite lookup_app_r by lia.
    by replace (S (length h) - length h) with 1 by lia.
Qed.

(** X3: for [Push], an error that holds a nil [*Elist] is the same as the
    nil error: the two calls return the same value and the same heap. *)
Theorem Push_typed_nil_as_nil (s : string) (h : heap) :
  Push (EElist None) s h = Push ENil s h.
Proof. by rewrite Push_Elist_eq, Push_nil_eq. Qed.

(** ** [Push] on a stack *)

(** X4: [Push] on the head of a stack returns a stack with one more node,
    the message above the nodes of the old stack, in their order; it renders
    as the line of the message with number 1 and below it the lines of the
    old stack, numbered from 2. *)
Theorem Push_chain_render (h : heap) (p : ptr) (cs : list (loc * iface))
    (s : string) :
  is_chain h p cs →
  ∃ l h', Push (EElist p) s h = Some (EElist (Some l), h') ∧
          is_chain h' (Some l) ((l, IString s) :: cs) ∧
          Error (Some l) h'
          = Some ("Error 1: " +:+ DQUOTE +:+ s +:+ DQUOTE +:+ "." +:+ LF +:+
                  render 2 cs.*2, h').
Proof.
  intros Hc. exists (length h), (h ++ [mkElist p (IString s)]).
  split; [apply Push_Elist_eq |].
  assert (is_chain (h ++ [mkElist p (IString s)]) (Some (length h))
            ((length h, IString s) :: cs)) as Hc'.
  { apply (is_chain_cons _ _ (mkElist p (IString s)));
      [apply lookup_last | by apply is_chain_app]. }
  split; [done |].
  rewrite (Error_chain _ _ _ Hc'). do 2 f_equal.
  simpl. rewrite render_cons. unfold Error_line, switch_msg.
  by rewrite ?append_assoc.
Qed.

Lemma Push_chain_render_witness :
  is_chain sample_heap (Some 1) sample_cs ∧
  ∃ l h', Push (EElist (Some 1)) "load failed" sample_heap
          = Some (EElist (Some l), h') ∧
          is_chain h' (Some l) ((l, IString "load failed") :: sample_cs) ∧
          Error (Some l) h'
          = Some ("Error 1: " +:+ DQUOTE +:+ "load failed" +:+ DQUOTE +:+ "."
                    +:+ LF +:+ render 2 sample_cs.*2, h').
Proof.
  split; [exact sample_chain |].
  exact (Push_chain_render sample_heap (Some 1) sample_cs "load failed"
           sample_chain).
Defined.




(** X6: two calls of [Push] on the same stack give two stacks at different
    addresses that share the old stack as their tail; the old stack is still
    the stack it was. *)
Theorem Push_fork (h : heap) (p : ptr) (cs : list (loc * iface))
    (a b : string) :
  is_chain h p cs →
  ∃ l1 l2 h',
    (e1 <- Push (EElist p) a ;; e2 <- Push (EElist p) b ;; ret (e1, e2)) h
    = Some ((EElist (Some l1), EElist (Some l2)), h') ∧
    l1 ≠ l2 ∧
    is_chain h' (Some l1) ((l1, IString a) :: cs) ∧
    is_chain h' (Some l2) ((l2, IString b) :: cs) ∧
    is_chain h' p cs.
Proof.
  intros Hc.
  set (h1 := h ++ [mkElist p (IString a)]).
  set (h2 := h1 ++ [mkElist p (IString b)]).
  assert (length h1 = S (length h)) as Hlen
    by (unfold h1; rewrite length_app; simpl; lia).
  exists (length h), (length h1), h2.
  split. { go_step Push_Elist_eq. by go_step Push_Elist_eq. }
  split; [lia |].
  split; [| split].
  - apply is_chain_app.
    apply (is_chain_cons _ _ (mkElist p (IString a)));
      [apply lookup_last | by apply is_chain_app].
  - apply (is_chain_cons _ _ (mkElist p (IString b)));
      [apply lookup_last | by do 2 apply is_chain_app].
  - by do 2 apply is_chain_app.
Qed.

Lemma Push_fork_witness :
  is_chain sample_heap (Some 1) sample_cs ∧
  ∃ l1 l2 h',
    (e1 <- Push (EElist (Some 1)) "first caller" ;;
     e2 <- Push (EElist (Some 1)) "second caller" ;; ret (e1, e2)) sample_heap
    = Some ((EElist (Some l1), EElist (Some l2)), h') ∧
    l1 ≠ l2 ∧
    is_chain h' (Some l1) ((l1, IString "first caller") :: sample_cs) ∧
    is_chain h' (Some l2) ((l2, IString "second caller") :: sample_cs) ∧
    is_chain h' (Some 1) sample_cs.
Proof.
  split; [exact sample_chain |].
  exact (Push_fork sample_heap (Some 1) sample_cs "first caller"
           "second caller" sample_chain).
Defined.

(** ** [Elist.Error] on any stack *)

(** X7: on a stack of [k] nodes [Elist.Error] returns [k] lines, one for
    each node from the head on; the counter goes up by one with each node,
    whatever its payload, so line [i + 1] carries the number [i + 1] and the
    text that the type switch gives for the payload of node [i]. *)
Theorem Error_lines (h : heap) (p : ptr) (cs : list (loc * iface)) :
  is_chain h p cs →
  ∃ lines, Error p h = Some (foldr String.append "" lines, h) ∧
           length lines = length cs ∧
           ∀ (i : nat) (v : iface), cs.*2 !! i = Some v →
             lines !! i = Some ("Error " +:+ pretty (Z.of_nat (i + 1)) +:+
                                switch_msg v +:+ "." +:+ LF).
Proof.
  intros Hc. exists (trace_lines 1 cs.*2).
  split; [by apply Error_chain |].
  split; [by rewrite trace_lines_length, length_fmap |].
  intros i v Hi. rewrite trace_lines_lookup, Hi; simpl.
  unfold Error_line.
  by replace (1 + Z.of_nat i)%Z with (Z.of_nat (i + 1)) by lia.
Qed.

Lemma Error_lines_witness :
  is_chain odd_heap (Some 2) odd_cs ∧
  ∃ lines, Error (Some 2) odd_heap
           = Some (foldr String.append "" lines, odd_heap) ∧
           length lines = length odd_cs ∧
           ∀ (i : nat) (v : iface), odd_cs.*2 !! i = Some v →
             lines !! i = Some ("Error " +:+ pretty (Z.of_nat (i + 1)) +:+
                                switch_msg v +:+ "." +:+ LF).
Proof.
  split; [exact odd_chain |].
  exact (Error_lines odd_heap (Some 2) odd_cs odd_chain).
Defined.

(** X8: [Elist.Error] returns the empty string for the nil pointer only: the
    rendering of a stack with a node is never empty, even when its messages
    are. *)
Theorem Error_empty_iff_nil (h : heap) (p : ptr) (cs : list (loc * iface)) :
  is_chain h p cs →
  ∃ out, Error p h = Some (out, h) ∧ (out = "" ↔ p = None).
Proof.
  intros Hc. exists (render 1 cs.*2).
  split; [by apply Error_chain |].
  destruct Hc as [|l nd cs Hl Hc]; [done |].
  simpl. rewrite render_cons. unfold Error_line.
  rewrite append_assoc, append_cons. split; discriminate.
Qed.

Lemma Error_empty_iff_nil_witness :
  is_chain [mkElist None (IString "")] (Some 0) [(0, IString "")] ∧
  ∃ out, Error (Some 0) [mkElist None (IString "")]
         = Some (out, [mkElist None (IString "")]) ∧
         (out = "" ↔ Some 0 = None).
Proof.
  assert (is_chain [mkElist None (IString "")] (Some 0) [(0, IString "")])
    as Hc.
  { apply (is_chain_cons _ 0 (mkElist None (IString ""))); [reflexivity |].
    constructor. }
  split; [exact Hc |].
  exact (Error_empty_iff_nil _ _ _ Hc).
Defined.

(** X9: the counter of the loop does not wrap: with a Go [int] of [w] bits,
    [Elist.Error] on a stack of less than [2 ^ (w - 1) - 1] nodes returns
    what it returns with an integer that has no bound. *)
Theorem Error_int_no_wrap (w : Z) (h : heap) (p : ptr)
    (cs : list (loc * iface)) :
  (0 < w)%Z → is_chain h p cs →
  (Z.of_nat (length cs) < 2 ^ (w - 1) - 1)%Z →
  Error_int w p h = Error p h.
Proof.
  intros Hw Hc Hlen. destruct p as [l|]; [| done].
  unfold Error_int, Error.
  assert (0 < 2 ^ (w - 1))%Z by (apply Z.pow_pos_nonneg; lia).
  apply (Error_loop_int_chain w h (Some l) cs); try done; try lia.
  by eapply is_chain_length.
Qed.

Lemma Error_int_no_wrap_witness :
  ((0 < 64)%Z ∧ is_chain sample_heap (Some 1) sample_cs ∧
   (Z.of_nat (length sample_cs) < 2 ^ (64 - 1) - 1)%Z) ∧
  Error_int 64 (Some 1) sample_heap = Error (Some 1) sample_heap.
Proof.
  assert (0 < 64)%Z as Hw by reflexivity.
  assert (Z.of_nat (length sample_cs) < 2 ^ (64 - 1) - 1)%Z as Hlen
    by reflexivity.
  split; [split; [exact Hw | split; [exact sample_chain | exact Hlen]] |].
  exact (Error_int_no_wrap 64 sample_heap (Some 1) sample_cs Hw sample_chain
           Hlen).
Defined.

(** ** Invariants of the heaps that the public functions build *)

Lemma known_alloc (P : list iface → Prop) h ext known p cs e :
  (∀ p, EElist p ∈ known → ∃ cs, is_chain h p cs ∧ P cs.*2) →
  e = EElist p →
  is_chain (h ++ ext) p cs →
  P cs.*2 →
  ∀ p', EElist p' ∈ e :: known → ∃ cs, is_chain (h ++ ext) p' cs ∧ P cs.*2.
Proof.
  intros Hok -> Hc Hvs p' [Heq|Hin]%elem_of_cons.
  - injection Heq as ->. eauto.
  - destruct (Hok p' Hin) as (cs' & Hc' & Hvs').
    exists cs'. split; [by apply is_chain_app | done].
Qed.

Lemma New_as_Push s h : New s h = Push ENil s h.
Proof. by rewrite New_eq, Push_nil_eq. Qed.

Lemma Push_shape h known e0 s e h' :
  (∀ p, EElist p ∈ known →
     ∃ cs, is_chain h p cs ∧ messages_then_root cs.*2) →
  client_error known e0 →
  Push e0 s h = Some (e, h') →
  ∀ p, EElist p ∈ e :: known →
    ∃ cs, is_chain h' p cs ∧ messages_then_root cs.*2.
Proof.
  intros Hok Hclient. destruct e0 as [|[l0|]|f].
  - rewrite Push_nil_eq. intros [= <- <-].
    eapply (known_alloc messages_then_root); [done | done | |].
    + apply (is_chain_cons _ _ (mkElist None (IString s)));
        [apply lookup_last | constructor].
    + exists s, [], []. split; [done | by left].
  - rewrite Push_Elist_eq. intros [= <- <-].
    destruct (Hok (Some l0) Hclient) as (cs & Hc & m & ms & tail & Hvs & Ht).
    eapply (known_alloc messages_then_root); [done | done | |].
    + apply (is_chain_cons _ _ (mkElist (Some l0) (IString s)));
        [apply lookup_last | by apply is_chain_app].
    + exists s, (m :: ms), tail. split; [| done].
      by rewrite fmap_cons, Hvs.
  - rewrite Push_Elist_eq. intros [= <- <-].
    eapply (known_alloc messages_then_root); [done | done | |].
    + apply (is_chain_cons _ _ (mkElist None (IString s)));
        [apply lookup_last | constructor].
    + exists s, [], []. split; [done | by left].
  - rewrite Push_foreign_eq. intros [= <- <-].
    eapply (known_alloc messages_then_root); [done | done | |].
    + apply (is_chain_cons _ _ (mkElist (Some (S (length h))) (IString s))).
      { by rewrite lookup_app_r, Nat.sub_diag by lia. }
      apply (is_chain_cons _ (S (length h)) (mkElist None (IError f)));
        [| constructor].
      rewrite lookup_app_r by lia.
      by replace (S (length h) - length h) with 1 by lia.
    + exists s, [], [IError f]. split; [done | right; by exists f].
Qed.

(** X10: in a heap built by calls of the public functions alone, every
    returned error is a stack with a message at its head, messages below it,
    and at most one adopted error, which is then the last node: an error of
    another type is only ever the last line of a rendering. *)
Theorem built_messages_then_root {any : Type} `{!Formatter any}
    (h : heap) (known : list error) (p : ptr) :
  built h known → EElist p ∈ known →
  ∃ cs, is_chain h p cs ∧ messages_then_root cs.*2.
Proof.
  intros Hb; revert p.
  induction Hb as [|h known c e h' _ IH Hclient Hrun].
  - by intros p ?%elem_of_nil.
  - destruct c as [s|format args|e0 s|e0 format args]; simpl in *;
      try (by eapply Push_shape); unfold Newf in *;
      rewrite New_as_Push in Hrun; by eapply (Push_shape _ _ ENil).
Qed.

Lemma built_messages_then_root_witness :
  let h := [mkElist None (IString "disk full: 93");
            mkElist (Some 0) (IString "save failed")] in
  let known := [EElist (Some 1); EElist (Some 0)] in
  (built (Formatter0 := append_operands) h known ∧ EElist (Some 1) ∈ known) ∧
  ∃ cs, is_chain h (Some 1) cs ∧ messages_then_root cs.*2.
Proof.
  intros h known.
  assert (built (Formatter0 := append_operands) h known) as Hb.
  { apply (built_call [mkElist None (IString "disk full: 93")]
             [EElist (Some 0)] (CallPush (EElist (Some 0)) "save failed"));
      [| simpl; apply list_elem_of_here | reflexivity].
    apply (built_call [] [] (CallNewf "disk full: " ["93"]));
      [apply built_start | exact I | reflexivity]. }
  assert (EElist (Some 1) ∈ known) as Hin by apply list_elem_of_here.
  split; [by split |].
  exact (built_messages_then_root h known (Some 1) Hb Hin).
Defined.

Lemma Push_extends e0 s h : ∃ e ext, Push e0 s h = Some (e, h ++ ext).
Proof.
  destruct e0; do 2 eexists;
    first [apply Push_nil_eq | apply Push_Elist_eq | apply Push_foreign_eq].
Qed.

Lemma Push_all_nodes h e0 s e h' :
  (∀ l, l < length h → ∃ cs, is_chain h (Some l) cs) →
  (∀ q, e0 = EElist q → ∃ cs, is_chain h q cs) →
  Push e0 s h = Some (e, h') →
  ∀ l, l < length h' → ∃ cs, is_chain h' (Some l) cs.
Proof.
  intros Hall Harg Hrun l Hl.
  destruct (decide (l < length h)) as [Hold|Hnew].
  { destruct (Hall l Hold) as [cs Hc]. exists cs.
    destruct (Push_extends e0 s h) as (e1 & ext & Hrun1).
    rewrite Hrun in Hrun1. injection Hrun1 as _ ->.
    by apply is_chain_app. }
  destruct e0 as [|q|f].
  - rewrite Push_nil_eq in Hrun. injection Hrun as _ <-.
    rewrite length_app in Hl; simpl in Hl.
    assert (l = length h) as -> by lia.
    eexists. apply (is_chain_cons _ _ (mkElist None (IString s)));
      [apply lookup_last | constructor].
  - rewrite Push_Elist_eq in Hrun. injection Hrun as _ <-.
    rewrite length_app in Hl; simpl in Hl.
    assert (l = length h) as -> by lia.
    destruct (Harg q eq_refl) as [cs Hc].
    eexists. apply (is_chain_cons _ _ (mkElist q (IString s)));
      [apply lookup_last | by apply is_chain_app].
  - rewrite Push_foreign_eq in Hrun. injection Hrun as _ <-.
    rewrite length_app in Hl; simpl in Hl.
    assert (is_chain (h ++ [mkElist (Some (S (length h))) (IString s);
                            mkElist None (IError f)])
              (Some (S (length h))) [(S (length h), IError f)]) as Hroot.
    { apply (is_chain_cons _ (S (length h)) (mkElist None (IError f)));
        [| constructor].
      rewrite lookup_app_r by lia.
      by replace (S (length h) - length h) with 1 by lia. }
    assert (l = length h ∨ l = S (length h)) as [-> | ->] by lia.
    + eexists.
      apply (is_chain_cons _ _ (mkElist (Some (S (length h))) (IString s)));
        [by rewrite lookup_app_r, Nat.sub_diag by lia | exact Hroot].
    + eexists. exact Hroot.
Qed.

(** X11: the public functions never close a cycle: in a heap built by their
    calls alone every allocated node, the adopting nodes too, heads a finite
    stack, and [Elist.Error] returns on it. *)
Theorem built_acyclic {any : Type} `{!Formatter any}
    (h : heap) (known : list error) (l : loc) :
  built h known → l < length h →
  ∃ cs out, is_chain h (Some l) cs ∧ Error (Some l) h = Some (out, h).
Proof.
  intros Hb Hl.
  assert (∃ cs, is_chain h (Some l) cs) as [cs Hc].
  { revert l Hl. induction Hb as [|h known c e h' Hb IH Hclient Hrun].
    - simpl. lia.
    - assert (∀ e0 s, Push e0 s h = Some (e, h') → client_error known e0 →
                ∀ l, l < length h' → ∃ cs, is_chain h' (Some l) cs) as Hpush.
      { intros e0 s Hp Hcl. eapply Push_all_nodes; [exact IH | | exact Hp].
        intros q ->. destruct q as [l0|]; [| exists []; constructor].
        destruct (built_chains_ok h known Hb (Some l0) Hcl) as (cs & ? & _).
        by exists cs. }
      destruct c as [s|format args|e0 s|e0 format args]; simpl in *;
        unfold Newf, Pushf in *; try rewrite New_as_Push in Hrun;
        by apply (Hpush _ _ Hrun). }
  exists cs, (render 1 cs.*2). split; [done | by apply Error_chain].
Qed.

Lemma built_acyclic_witness :
  let h := [mkElist (Some 1) (IString "read failed");
            mkElist None (IError (Foreign "EOF"))] in
  let known := [EElist (Some 0)] in
  (built (Formatter0 := append_operands) h known ∧ 1 < length h) ∧
  ∃ cs out, is_chain h (Some 1) cs ∧ Error (Some 1) h = Some (out, h).
Proof.
  intros h known.
  assert (built (Formatter0 := append_operands) h known) as Hb.
  { apply (built_call [] [] (CallPush (EForeign (Foreign "EOF")) "read failed"));
      [apply built_start | exact I | reflexivity]. }
  assert (1 < length h) as Hl by (simpl; lia).
  split; [by split |].
  exact (built_acyclic h known 1 Hb Hl).
Defined.

(** ** Composition *)

(** X12: calls of [Push] in a row on a stack put their messages above it,
    the last message first: the stack returned has the messages in reverse
    order and then the nodes of the old stack, and one node for each
    message more than the old stack. *)
Theorem push_all_onto (h : heap) (p : ptr) (cs : list (loc * iface))
    (ms : list string) :
  is_chain h p cs →
  ∃ p' h' cs',
    push_all (EElist p) ms h = Some (EElist p', h') ∧
    is_chain h' p' cs' ∧
    cs'.*2 = (IString <$> reverse ms) ++ cs.*2 ∧
    length cs' = length ms + length cs ∧
    Error p' h' = Some (render 1 ((IString <$> reverse ms) ++ cs.*2), h').
Proof.
  intros Hc.
  destruct (push_all_chain ms h p cs Hc) as (p' & h' & cs' & Hrun & Hc' & Hvs).
  exists p', h', cs'. split; [done |]. split; [done |]. split; [done |].
  split.
  - rewrite <- (length_fmap snd cs'), Hvs.
    by rewrite length_app, !length_fmap, length_reverse.
  - rewrite <- Hvs. by apply Error_chain.
Qed.

Lemma push_all_onto_witness :
  is_chain sample_heap (Some 1) sample_cs ∧
  ∃ p' h' cs',
    push_all (EElist (Some 1)) ["parse"; "load"] sample_heap
    = Some (EElist p', h') ∧
    is_chain h' p' cs' ∧
    cs'.*2 = (IString <$> reverse ["parse"; "load"]) ++ sample_cs.*2 ∧
    length cs' = length ["parse"; "load"] + length sample_cs ∧
    Error p' h'
    = Some (render 1 ((IString <$> reverse ["parse"; "load"])
                      ++ sample_cs.*2), h').
Proof.
  split; [exact sample_chain |].
  exact (push_all_onto sample_heap (Some 1) sample_cs ["parse"; "load"]
           sample_chain).
Defined.

(** X13: the formatted constructors compose like the plain ones: the stack
    [Pushf(Newf(f1, a1), f2, a2)] renders as two lines, the text formatted
    last on the first line, each text placed between the quotes as the
    formatter returned it. *)
Theorem Pushf_Newf_render {any : Type} `{!Formatter any}
    (f1 f2 : string) (a1 a2 : list any) (h : heap) :
  ∃ h', (c1 <- Newf f1 a1 ;; c2 <- Pushf c1 f2 a2 ;; error_Error c2) h
        = Some ("Error 1: " +:+ DQUOTE +:+ Sprintf f2 a2 +:+ DQUOTE +:+ "."
                  +:+ LF +:+
                "Error 2: " +:+ DQUOTE +:+ Sprintf f1 a1 +:+ DQUOTE +:+ "."
                  +:+ LF, h').
Proof.
  unfold Newf, Pushf.
  eexists. go_step New_eq. go_step Push_Elist_eq. rewrite error_Error_Elist.
  erewrite Error_chain; cycle 1.
  { econstructor; [apply lookup_last |]. simpl.
    apply is_chain_app.
    econstructor; [apply lookup_last |]. constructor. }
  do 2 f_equal. str_norm.
Qed.

(** ** What a rendering does not tell *)

(** X14: [Elist.Error] places a message between the quotes as it is, with
    no escape, so a rendering does not determine the stack: for all [s1] and
    [s2], the stack of the one message made of [s2], a closing quote, a new
    line and the start of a line 2 with [s1] renders to the same string as
    the stack of two nodes [Push(New(s1), s2)]. *)
Theorem Error_not_escaped (s1 s2 : string) (h : heap) :
  ∃ out h1 h2,
    (c <- New (s2 +:+ DQUOTE +:+ "." +:+ LF +:+ "Error 2: " +:+ DQUOTE +:+ s1) ;;
     error_Error c) h = Some (out, h1) ∧
    (c1 <- New s1 ;; c2 <- Push c1 s2 ;; error_Error c2) h = Some (out, h2) ∧
    length h1 = S (length h) ∧ length h2 = S (S (length h)).
Proof.
  do 3 eexists. split; [| split; [| split]].
  - go_step New_eq. rewrite error_Error_Elist.
    erewrite Error_chain; cycle 1.
    { econstructor; [apply lookup_last |]. constructor. }
    reflexivity.
  - go_step New_eq. go_step Push_Elist_eq. rewrite error_Error_Elist.
    erewrite Error_chain; cycle 1.
    { econstructor; [apply lookup_last |]. simpl.
      apply is_chain_app.
      econstructor; [apply lookup_last |]. constructor. }
    do 2 f_equal. str_norm.
  - rewrite length_app; simpl; lia.
  - rewrite !length_app; simpl; lia.
Qed.

(** * [Elist.Error] with the foreign code it runs *)

Lemma Error_loop_in_chain {W : Type} (code : foreign → methods W)
    h q cs fuel n str w :
  is_chain h q cs → length cs ≤ fuel →
  Error_loop_in code fuel q n str w h
  = Some ((str +:+ (render_in code n cs.*2 w).1,
           (render_in code n cs.*2 w).2), h).
Proof.
  intros Hc; revert fuel n str w.
  induction Hc as [|l nd cs Hl _ IH]; intros fuel n str w Hfuel.
  - destruct fuel; simpl; unfold ret; by rewrite append_nil_r.
  - destruct fuel as [|fuel]; simpl in Hfuel; [lia |].
    simpl. rewrite (bind_Some _ _ _ nd h) by (by apply load_Some). simpl.
    rewrite IH by lia. by rewrite append_assoc.
Qed.

Lemma Error_in_chain {W : Type} (code : foreign → methods W) h p cs w :
  is_chain h p cs →
  Error_in code p w h
  = Some ((render_in code 1 cs.*2 w).1, (render_in code 1 cs.*2 w).2, h).
Proof.
  intros Hc. destruct p as [l|].
  - unfold Error_in.
    rewrite (Error_loop_in_chain code h (Some l) cs); [done.. |].
    by eapply is_chain_length.
  - by inversion Hc.
Qed.

(** Where printing the adopted errors leaves the foreign state, the whole
    rendering leaves it. *)
Lemma render_in_quiet {W : Type} (code : foreign → methods W) n vs w :
  quiet code vs w → (render_in code n vs w).2 = w.
Proof.
  revert n; induction vs as [|v vs IH]; intros n Hq; [done |].
  simpl.
  assert ((switch_msg_in code v w).2 = w) as ->.
  { destruct v; simpl; try done. apply Hq, list_elem_of_here. }
  apply IH. intros x Hx. by apply Hq, list_elem_of_further.
Qed.

(** With inert foreign code the loop is the loop [Error_loop], and the
    foreign state stays. *)
Lemma Error_loop_in_inert {W : Type} fuel q n str (w : W) h :
  Error_loop_in inert_code fuel q n str w h
  = match Error_loop fuel q n str h with
    | Some (s, h') => Some ((s, w), h')
    | None => None
    end.
Proof.
  revert q n str; induction fuel as [|fuel IH]; intros q n str;
    destruct q as [l|]; simpl; try done.
  unfold bind, load. destruct (h !! l) as [nd|]; [| done].
  destruct (value nd); simpl; by rewrite IH.
Qed.

Lemma Error_in_inert {W : Type} p (w : W) h :
  Error_in inert_code p w h
  = match Error p h with
    | Some (s, h') => Some ((s, w), h')
    | None => None
    end.
Proof. destruct p as [l|]; [apply Error_loop_in_inert | done]. Qed.

(** C5, as the package has it: [Push] on an error [e] of another type than
    [*Elist] returns a stack of two nodes, the message above a new node that
    holds [e] itself.  The stack renders as two lines, and the text between
    the quotes of the second is what [fmt] prints for [e] under [%v] at that
    rendering: what the [Format] method of [e] writes if its type has one,
    otherwise what its [Error] method returns, and for a method that panics
    the text [fmt] recovers with, [<nil>] on a nil pointer. *)
Theorem Push_foreign_render_in {W : Type} (code : foreign → methods W)
    (f : foreign) (s : string) (h : heap) (w : W) :
  ∃ l q h',
    Push (EForeign f) s h = Some (EElist (Some l), h') ∧
    is_chain h' (Some l) [(l, IString s); (q, IError f)] ∧
    Error_in code (Some l) w h'
    = Some ("Error 1: " +:+ DQUOTE +:+ s +:+ DQUOTE +:+ "." +:+ LF +:+
            "Error 2: " +:+ DQUOTE +:+ (fmt_v (code f) w).1 +:+ DQUOTE
              +:+ "." +:+ LF,
            (fmt_v (code f) w).2, h') ∧
    (fmt_v (code f) w).1
    = fmt_recover (nil_pointer (code f))
        (match Format_method (code f) with
         | Some format => format w
         | None => Error_method (code f) w
         end).1.
Proof.
  set (h' := h ++ [mkElist (Some (S (length h))) (IString s);
                   mkElist None (IError f)]).
  assert (is_chain h' (Some (length h))
            [(length h, IString s); (S (length h), IError f)]) as Hc.
  { apply (is_chain_cons _ _ (mkElist (Some (S (length h))) (IString s))).
    { unfold h'. by rewrite lookup_app_r, Nat.sub_diag by lia. }
    apply (is_chain_cons _ _ (mkElist None (IError f))); [| constructor].
    unfold h'. rewrite lookup_app_r by lia.
    by replace (S (length h) - length h) with 1 by lia. }
  exists (length h), (S (length h)), h'.
  split; [apply Push_foreign_eq |]. split; [done |].
  split; [| unfold fmt_v; by destruct (Format_method (code f))].
  rewrite (Error_in_chain code _ _ _ w Hc). simpl.
  do 3 f_equal. unfold Error_line.
  by rewrite ?append_assoc, ?append_nil_r.
Qed.

(** C5 as stated fails: for an error whose type implements [fmt.Formatter]
    the second line quotes what [Format] writes, not the text that the
    [Error] method of the error returns. *)
Lemma Push_foreign_render_counterexample :
  ∃ l h' out,
    Push (EForeign (Foreign "EOF")) "read failed" []
    = Some (EElist (Some l), h') ∧
    Error_method (formatter_code (Foreign "EOF")) tt = (Returns "EOF", tt) ∧
    Error_in formatter_code (Some l) tt h' = Some (out, tt, h') ∧
    out = "Error 1: " +:+ DQUOTE +:+ "read failed" +:+ DQUOTE +:+ "." +:+ LF
          +:+ "Error 2: " +:+ DQUOTE +:+ "status 7" +:+ DQUOTE +:+ "." +:+ LF ∧
    out ≠ "Error 1: " +:+ DQUOTE +:+ "read failed" +:+ DQUOTE +:+ "." +:+ LF
          +:+ "Error 2: " +:+ DQUOTE +:+ "EOF" +:+ DQUOTE +:+ "." +:+ LF.
Proof.
  exists 0, [mkElist (Some 1) (IString "read failed");
             mkElist None (IError (Foreign "EOF"))],
    ("Error 1: " +:+ DQUOTE +:+ "read failed" +:+ DQUOTE +:+ "." +:+ LF
     +:+ "Error 2: " +:+ DQUOTE +:+ "status 7" +:+ DQUOTE +:+ "." +:+ LF).
  split; [reflexivity |]. split; [reflexivity |].
  split; [vm_compute; reflexivity |]. split; [reflexivity | discriminate].
Qed.

(** The same for a nil pointer whose [Error] method panics: the error has no
    text of its own, and the second line quotes [<nil>]. *)
Example Push_foreign_render_nil_pointer :
  ∃ l h',
    Push (EForeign (Foreign "EOF")) "read failed" []
    = Some (EElist (Some l), h') ∧
    Error_method (nil_code (Foreign "EOF")) tt = (Panics "", tt) ∧
    Error_in nil_code (Some l) tt h'
    = Some ("Error 1: " +:+ DQUOTE +:+ "read failed" +:+ DQUOTE +:+ "." +:+ LF
            +:+ "Error 2: " +:+ DQUOTE +:+ "<nil>" +:+ DQUOTE +:+ "." +:+ LF,
            tt, h').
Proof.
  exists 0, [mkElist (Some 1) (IString "read failed");
             mkElist None (IError (Foreign "EOF"))].
  split; [reflexivity |]. split; [reflexivity | vm_compute; reflexivity].
Qed.

(** C7, as the package has it: on every stack [Elist.Error] returns and
    leaves the heap as it is, each payload and each [next]; where printing
    the adopted errors of the stack leaves the state of the foreign code, as
    on a stack of messages alone, a second call returns the same string. *)
Theorem Error_in_repeatable {W : Type} (code : foreign → methods W)
    (h : heap) (p : ptr) (cs : list (loc * iface)) (w : W) :
  is_chain h p cs →
  (∃ out w', Error_in code p w h = Some (out, w', h)) ∧
  (quiet code cs.*2 w →
   ∃ out, Error_in code p w h = Some (out, w, h) ∧
          Error_twice code p w h = Some (out, out, h)).
Proof.
  intros Hc. pose proof (Error_in_chain code h p cs w Hc) as HE.
  split; [by do 2 eexists |].
  intros Hq. rewrite (render_in_quiet code 1 cs.*2 w Hq) in HE.
  eexists. split; [exact HE |].
  unfold Error_twice. go_step HE. simpl. by go_step HE.
Qed.

Lemma Error_in_repeatable_witness :
  (is_chain sample_heap (Some 1) sample_cs ∧
   quiet (W := nat) inert_code sample_cs.*2 0) ∧
  (∃ out w', Error_in inert_code (Some 1) 0 sample_heap
             = Some (out, w', sample_heap)) ∧
  (quiet (W := nat) inert_code sample_cs.*2 0 →
   ∃ out, Error_in inert_code (Some 1) 0 sample_heap
          = Some (out, 0, sample_heap) ∧
          Error_twice inert_code (Some 1) 0 sample_heap
          = Some (out, out, sample_heap)).
Proof.
  split.
  - split; [exact sample_chain |]. intros x _. reflexivity.
  - exact (Error_in_repeatable inert_code sample_heap (Some 1) sample_cs 0
             sample_chain).
Defined.

(** C7 as stated fails: an adopted error whose [Error] method counts its
    calls is printed anew at each rendering, and two calls of [Elist.Error]
    in a row on the stack that [Push] returned give two different strings,
    while the heap stays as it is. *)
Lemma Error_twice_counterexample :
  ∃ l h',
    Push (EForeign (Foreign "timeout")) "read failed" []
    = Some (EElist (Some l), h') ∧
    Error_twice counting_code (Some l) 0 h'
    = Some ("Error 1: " +:+ DQUOTE +:+ "read failed" +:+ DQUOTE +:+ "." +:+ LF
            +:+ "Error 2: " +:+ DQUOTE +:+ "timeout #0" +:+ DQUOTE +:+ "."
            +:+ LF,
            "Error 1: " +:+ DQUOTE +:+ "read failed" +:+ DQUOTE +:+ "." +:+ LF
            +:+ "Error 2: " +:+ DQUOTE +:+ "timeout #1" +:+ DQUOTE +:+ "."
            +:+ LF, h') ∧
    "Error 1: " +:+ DQUOTE +:+ "read failed" +:+ DQUOTE +:+ "." +:+ LF
    +:+ "Error 2: " +:+ DQUOTE +:+ "timeout #0" +:+ DQUOTE +:+ "." +:+ LF
    ≠ "Error 1: " +:+ DQUOTE +:+ "read failed" +:+ DQUOTE +:+ "." +:+ LF
      +:+ "Error 2: " +:+ DQUOTE +:+ "timeout #1" +:+ DQUOTE +:+ "." +:+ LF.
Proof.
  exists 0, [mkElist (Some 1) (IString "read failed");
             mkElist None (IError (Foreign "timeout"))].
  split; [reflexivity |]. split; [vm_compute; reflexivity | discriminate].
Qed.
